(** * PositionControl: the cascaded multicopter position controller

    A shallow embedding of [src/modules/mc_pos_control/PositionControl.hpp].

    The header gives the data model (the members of [class PositionControl]
    and [struct Controller::Constraints]), the two integral resets and the
    five read accessors.  The bodies of [updateState], [updateSetpoint],
    [updateConstraints], [generateThrustYawSetpoint], [_interfaceMapping],
    [_positionController] and [_velocityController] live in a translation
    unit that is not part of the sources at hand; the ones the properties
    below need are modelled from the specification and marked as such.

    Numbers.  The members are C++ [float]s, and the interface uses NaN as the
    "not set" marker, so the model needs NaN and the two infinities beside the
    finite values.  A finite value is kept as a real number: rounding and
    overflow of binary32 are not modelled, the not-a-number and infinity
    behaviour of the operations is.  Comparisons of reals are decided by
    [Rlt_dec]; on concrete controllers the definitions are evaluated by
    rewriting with [lra] (the tactics [feval] and [fin_eq] below).

    Layout: floats and vectors; the members of the class; the operations the
    header defines; the control step as the specification has it; the
    statements and sample controllers; then the lemmas and, last, the
    properties themselves. *)

From Stdlib Require Import Reals Lra Bool List ZArith Permutation.
Import ListNotations.

Local Open Scope R_scope.

(** ** Floats *)

Module Float.

Inductive float : Type :=
| Fin (r : R)
| PInf
| NInf
| NaN.

Definition zero : float := Fin 0.

(** [PX4_ISFINITE] / [std::isfinite]. *)
Definition isfinite (a : float) : bool :=
  match a with Fin _ => true | _ => false end.

Definition isnan (a : float) : bool :=
  match a with NaN => true | _ => false end.

Definition Rltb (x y : R) : bool := if Rlt_dec x y then true else false.
Definition Reqb (x y : R) : bool := if Req_dec_T x y then true else false.

(** The sign of an infinity times (or over) a finite non-zero value. *)
Definition inf_signed (positive : bool) : float :=
  if positive then PInf else NInf.

Definition fopp (a : float) : float :=
  match a with
  | Fin x => Fin (- x)
  | PInf => NInf
  | NInf => PInf
  | NaN => NaN
  end.

Definition fabs (a : float) : float :=
  match a with
  | Fin x => Fin (Rabs x)
  | PInf | NInf => PInf
  | NaN => NaN
  end.

Definition fadd (a b : float) : float :=
  match a, b with
  | NaN, _ | _, NaN => NaN
  | Fin x, Fin y => Fin (x + y)
  | PInf, NInf | NInf, PInf => NaN
  | PInf, _ | _, PInf => PInf
  | NInf, _ | _, NInf => NInf
  end.

Definition fsub (a b : float) : float := fadd a (fopp b).

Definition fmul (a b : float) : float :=
  match a, b with
  | NaN, _ | _, NaN => NaN
  | Fin x, Fin y => Fin (x * y)
  | Fin x, PInf | PInf, Fin x =>
      if Reqb x 0 then NaN else inf_signed (Rltb 0 x)
  | Fin x, NInf | NInf, Fin x =>
      if Reqb x 0 then NaN else inf_signed (Rltb x 0)
  | PInf, PInf | NInf, NInf => PInf
  | PInf, NInf | NInf, PInf => NInf
  end.

(** Division: a finite value over zero is an infinity of its sign, zero over
    zero and infinity over infinity are NaN (the zero is taken positive). *)
Definition fdiv (a b : float) : float :=
  match a, b with
  | NaN, _ | _, NaN => NaN
  | Fin x, Fin y =>
      if Reqb y 0
      then (if Reqb x 0 then NaN else inf_signed (Rltb 0 x))
      else Fin (x / y)
  | Fin _, (PInf | NInf) => zero
  | PInf, Fin y => inf_signed (negb (Rltb y 0))
  | NInf, Fin y => inf_signed (Rltb y 0)
  | (PInf | NInf), (PInf | NInf) => NaN
  end.

(** [sqrtf]. *)
Definition fsqrt (a : float) : float :=
  match a with
  | Fin x => if Rltb x 0 then NaN else Fin (sqrt x)
  | PInf => PInf
  | NInf | NaN => NaN
  end.

(** [tanf]. *)
Definition ftan (a : float) : float :=
  match a with
  | Fin x => Fin (tan x)
  | _ => NaN
  end.

(** [a < b]; every comparison with NaN is false. *)
Definition flt (a b : float) : bool :=
  match a, b with
  | NaN, _ | _, NaN => false
  | Fin x, Fin y => Rltb x y
  | NInf, NInf => false
  | NInf, _ => true
  | PInf, _ => false
  | Fin _, PInf => true
  | Fin _, NInf => false
  end.

(** [a <= b]. *)
Definition fle (a b : float) : bool :=
  match a, b with
  | NaN, _ | _, NaN => false
  | Fin x, Fin y => negb (Rltb y x)
  | NInf, _ => true
  | _, PInf => true
  | _, _ => false
  end.

End Float.
Export Float.

Declare Scope float_scope.
Delimit Scope float_scope with fl.
Infix "+" := fadd : float_scope.
Infix "-" := fsub : float_scope.
Infix "*" := fmul : float_scope.
Infix "/" := fdiv : float_scope.
Notation "- a" := (fopp a) : float_scope.
Infix "<?" := flt : float_scope.

(** ** Vectors

    [matrix::Vector3f], indexed by [(0)], [(1)], [(2)]. *)

Inductive axis : Type := AX | AY | AZ.

Record Vector3f : Type := mkV { v0 : float; v1 : float; v2 : float }.

Definition vget (v : Vector3f) (i : axis) : float :=
  match i with AX => v0 v | AY => v1 v | AZ => v2 v end.

Definition vset (v : Vector3f) (i : axis) (a : float) : Vector3f :=
  match i with
  | AX => mkV a (v1 v) (v2 v)
  | AY => mkV (v0 v) a (v2 v)
  | AZ => mkV (v0 v) (v1 v) a
  end.

Definition vtabulate (f : axis -> float) : Vector3f :=
  mkV (f AX) (f AY) (f AZ).

Definition vfinite (v : Vector3f) : bool :=
  isfinite (v0 v) && isfinite (v1 v) && isfinite (v2 v).

(** ** The data of the header *)

(** [struct Controller::Constraints]. *)
Record Constraints : Type := mkConstraints {
  tilt_max : float;      (* maximum tilt always below Pi/2 *)
  vel_max_z_up : float   (* maximum speed upwards *)
}.

(** [struct DirectionD]. *)
Record DirectionD : Type := mkDirectionD { up : float; down : float }.

(** [struct Limits]. *)
Record Limits : Type := mkLimits { max : float; min : float }.

(** [param_t] comes from [parameters/param.h]; a handle is an integer and no
    operation below looks at one. *)
Definition param_t : Type := Z.

(** The block of members under "Parameter handles". *)
Record ParamHandles : Type := mkParamHandles {
  _parameter_sub : Z;
  _Pz_h : param_t;
  _Pvz_h : param_t;
  _Ivz_h : param_t;
  _Dvz_h : param_t;
  _Pxy_h : param_t;
  _Pvxy_h : param_t;
  _Ivxy_h : param_t;
  _Dvxy_h : param_t;
  _VelMaxXY_h : param_t;
  _VelMaxZdown_h : param_t;
  _VelMaxZup_h : param_t;
  _ThrHover_h : param_t;
  _ThrMax_h : param_t;
  _ThrMinPosition_h : param_t;
  _ThrMinStab_h : param_t
}.

(** The private members of [class PositionControl], in declaration order. *)
Record PositionControl : Type := mkPositionControl {
  _pos : Vector3f;             (* MC position *)
  _vel : Vector3f;             (* MC velocity *)
  _vel_dot : Vector3f;         (* MC velocity derivative *)
  _acc : Vector3f;             (* MC acceleration *)
  _yaw : float;                (* MC yaw *)
  _pos_sp : Vector3f;          (* desired position *)
  _vel_sp : Vector3f;          (* desired velocity *)
  _acc_sp : Vector3f;          (* desired acceleration: not supported yet *)
  _thr_sp : Vector3f;          (* desired thrust *)
  _yaw_sp : float;             (* desired yaw *)
  _yawspeed_sp : float;        (* desired yaw-speed *)
  _thr_int : Vector3f;         (* thrust integral term *)
  _constraints : Constraints;  (* variable constraints *)
  Pp : Vector3f;
  Pv : Vector3f;
  Iv : Vector3f;
  Dv : Vector3f;
  _VelMaxXY : float;
  _VelMaxZ : DirectionD;
  _ThrustLimit : Limits;
  _ThrHover : float;
  _ThrMinPosition : float;
  _ThrMinStab : float;
  _tilt_max : float;
  _skipController : bool;
  _handles : ParamHandles
}.

(** Assignment to the members the operations write: the setpoints and the
    integral.  Every other member is copied. *)
Definition with_setpoints (s : PositionControl)
    (pos_sp vel_sp thr_sp : Vector3f) (yaw_sp yawspeed_sp : float)
    (thr_int : Vector3f) : PositionControl :=
  {| _pos := _pos s; _vel := _vel s; _vel_dot := _vel_dot s; _acc := _acc s;
     _yaw := _yaw s;
     _pos_sp := pos_sp; _vel_sp := vel_sp; _acc_sp := _acc_sp s;
     _thr_sp := thr_sp; _yaw_sp := yaw_sp; _yawspeed_sp := yawspeed_sp;
     _thr_int := thr_int; _constraints := _constraints s;
     Pp := Pp s; Pv := Pv s; Iv := Iv s; Dv := Dv s;
     _VelMaxXY := _VelMaxXY s; _VelMaxZ := _VelMaxZ s;
     _ThrustLimit := _ThrustLimit s; _ThrHover := _ThrHover s;
     _ThrMinPosition := _ThrMinPosition s; _ThrMinStab := _ThrMinStab s;
     _tilt_max := _tilt_max s; _skipController := _skipController s;
     _handles := _handles s |}.

Definition set_pos_sp (v : Vector3f) (s : PositionControl) :=
  with_setpoints s v (_vel_sp s) (_thr_sp s) (_yaw_sp s) (_yawspeed_sp s)
    (_thr_int s).
Definition set_vel_sp (v : Vector3f) (s : PositionControl) :=
  with_setpoints s (_pos_sp s) v (_thr_sp s) (_yaw_sp s) (_yawspeed_sp s)
    (_thr_int s).
Definition set_thr_sp (v : Vector3f) (s : PositionControl) :=
  with_setpoints s (_pos_sp s) (_vel_sp s) v (_yaw_sp s) (_yawspeed_sp s)
    (_thr_int s).
Definition set_yaw_sp (a : float) (s : PositionControl) :=
  with_setpoints s (_pos_sp s) (_vel_sp s) (_thr_sp s) a (_yawspeed_sp s)
    (_thr_int s).
Definition set_yawspeed_sp (a : float) (s : PositionControl) :=
  with_setpoints s (_pos_sp s) (_vel_sp s) (_thr_sp s) (_yaw_sp s) a
    (_thr_int s).
Definition set_thr_int (v : Vector3f) (s : PositionControl) :=
  with_setpoints s (_pos_sp s) (_vel_sp s) (_thr_sp s) (_yaw_sp s)
    (_yawspeed_sp s) v.

(** ** The operations the header defines *)

(** [void resetIntegralXY() {_thr_int(0) = _thr_int(1) = 0.0f;}]: the chained
    assignment stores into component 1, then into component 0. *)
Definition resetIntegralXY (s : PositionControl) : PositionControl :=
  set_thr_int (vset (vset (_thr_int s) AY zero) AX zero) s.

(** [void resetIntegralZ() {_thr_int(2) = 0.0f;}]. *)
Definition resetIntegralZ (s : PositionControl) : PositionControl :=
  set_thr_int (vset (_thr_int s) AZ zero) s.

(** The accessors are non-const member functions returning by value: each is
    a computation on the controller that yields a value and the controller it
    leaves behind. *)
Definition Method (A : Type) : Type := PositionControl -> A * PositionControl.

Definition getThrustSetpoint : Method Vector3f := fun s => (_thr_sp s, s).
Definition getYawSetpoint : Method float := fun s => (_yaw_sp s, s).
Definition getYawspeedSetpoint : Method float := fun s => (_yawspeed_sp s, s).
Definition getVelSp : Method Vector3f := fun s => (_vel_sp s, s).
Definition getPosSp : Method Vector3f := fun s => (_pos_sp s, s).

(** A caller's view of the read interface: which accessor it calls and what
    comes back. *)
Inductive Accessor : Type :=
| GetThrustSetpoint
| GetYawSetpoint
| GetYawspeedSetpoint
| GetVelSp
| GetPosSp.

Inductive Reading : Type :=
| RVector (v : Vector3f)
| RScalar (a : float).

Definition call (a : Accessor) : Method Reading :=
  fun s =>
    match a with
    | GetThrustSetpoint => let (v, s') := getThrustSetpoint s in (RVector v, s')
    | GetYawSetpoint => let (y, s') := getYawSetpoint s in (RScalar y, s')
    | GetYawspeedSetpoint =>
        let (y, s') := getYawspeedSetpoint s in (RScalar y, s')
    | GetVelSp => let (v, s') := getVelSp s in (RVector v, s')
    | GetPosSp => let (v, s') := getPosSp s in (RVector v, s')
    end.

(** The member an accessor is documented to return. *)
Definition member (a : Accessor) (s : PositionControl) : Reading :=
  match a with
  | GetThrustSetpoint => RVector (_thr_sp s)
  | GetYawSetpoint => RScalar (_yaw_sp s)
  | GetYawspeedSetpoint => RScalar (_yawspeed_sp s)
  | GetVelSp => RVector (_vel_sp s)
  | GetPosSp => RVector (_pos_sp s)
  end.

(** A sequence of accessor calls, each on the controller the previous call
    left. *)
Fixpoint calls (l : list Accessor) : Method (list Reading) :=
  fun s =>
    match l with
    | [] => ([], s)
    | a :: l' =>
        let (r, s1) := call a s in
        let (rs, s2) := calls l' s1 in
        (r :: rs, s2)
    end.

(** A caller's program over the part of the interface the header defines:
    accessor calls and the two integral resets, in any order. *)
Inductive Op : Type :=
| OpRead (a : Accessor)
| OpResetXY
| OpResetZ.

(** One operation: an accessor yields its reading, a reset ([void]) yields
    none. *)
Definition perform (o : Op) : Method (list Reading) :=
  fun s =>
    match o with
    | OpRead a => let (r, s') := call a s in ([r], s')
    | OpResetXY => ([], resetIntegralXY s)
    | OpResetZ => ([], resetIntegralZ s)
    end.

(** A program, each operation on the controller the previous one left; the
    readings come back in call order. *)
Fixpoint run (p : list Op) : Method (list Reading) :=
  fun s =>
    match p with
    | [] => ([], s)
    | o :: p' =>
        let (r, s1) := perform o s in
        let (rs, s2) := run p' s1 in
        (r ++ rs, s2)
    end.

(** The accessors a program calls, in order. *)
Fixpoint reads (p : list Op) : list Accessor :=
  match p with
  | [] => []
  | OpRead a :: p' => a :: reads p'
  | _ :: p' => reads p'
  end.

Definition is_resetXY (o : Op) : bool :=
  match o with OpResetXY => true | _ => false end.

Definition is_resetZ (o : Op) : bool :=
  match o with OpResetZ => true | _ => false end.

(** ** The control step

    The header declares [generateThrustYawSetpoint], [_interfaceMapping],
    [_positionController] and [_velocityController] and defines none of them.
    What follows is their behaviour as the specification words it (sections
    4.1 to 4.3 and 7), over the members above. *)

Local Open Scope float_scope.

(** Modelled from the spec: the clamp of a value to [[lo, hi]] that sections
    4.2 and 4.3 call "clamped" and "limit to [min, max]" ([math::constrain],
    whose definition is outside the header).  A NaN value passes through. *)
Definition constrain (val lo hi : float) : float :=
  if val <? lo then lo else if hi <? val then hi else val.

(** Modelled from the spec: the smaller of two limits, for "narrower than
    global parameter limits, never wider" (section 3). *)
Definition fmin (a b : float) : float := if b <? a then b else a.

(** Modelled from the spec: the state the specification gives the controller
    and the header has no member for: the saturation flag of each axis group
    that section 4.3 step 7 records "for the next cycle's anti-windup
    decision", and the last commanded yaw that section 4.1 holds when yaw and
    yaw-rate are both unset. *)
Record Loop : Type := mkLoop {
  ctrl : PositionControl;
  saturated_xy : bool;
  saturated_z : bool;
  yaw_hold : float
}.

Definition on_ctrl (f : PositionControl -> PositionControl) (l : Loop) : Loop :=
  {| ctrl := f (ctrl l); saturated_xy := saturated_xy l;
     saturated_z := saturated_z l; yaw_hold := yaw_hold l |}.

(** *** Setpoint resolver (section 4.1) *)

(** Modelled from the spec: "Unset" is the not-a-number sentinel, and a
    non-finite field other than the sentinel is "treated identically to the
    sentinel" (section 7): a field is set when it is finite. *)
Definition is_set (a : float) : bool := isfinite a.

(** Modelled from the spec: the axes "where position was set" (section 4.2),
    read off the raw setpoint before it is resolved. *)
Definition position_set (s : PositionControl) (i : axis) : bool :=
  is_set (vget (_pos_sp s) i).

(** Modelled from the spec: [_interfaceMapping], section 4.1.  Per axis an
    unset position becomes the current position (the target "tracks" the
    motion, section 8) and an unset velocity becomes zero; an unset yaw-rate
    becomes zero and an unset yaw the last commanded yaw.  The thrust and
    acceleration fields pass through. *)
Definition _interfaceMapping (l : Loop) : Loop :=
  let s := ctrl l in
  on_ctrl (fun _ =>
    with_setpoints s
      (vtabulate (fun i =>
         if is_set (vget (_pos_sp s) i) then vget (_pos_sp s) i
         else vget (_pos s) i))
      (vtabulate (fun i =>
         if is_set (vget (_vel_sp s) i) then vget (_vel_sp s) i else zero))
      (_thr_sp s)
      (if is_set (_yaw_sp s) then _yaw_sp s else yaw_hold l)
      (if is_set (_yawspeed_sp s) then _yawspeed_sp s else zero)
      (_thr_int s)) l.

(** *** Position loop (section 4.2) *)

(** Modelled from the spec: the proportional term of the position loop,
    [Pp * (position_target - position)], "only for axes where position was
    set"; it is zero on the other axes. *)
Definition p_term (ctl : axis -> bool) (s : PositionControl) (i : axis) : float :=
  if ctl i
  then vget (Pp s) i * (vget (_pos_sp s) i - vget (_pos s) i)
  else zero.

(** Modelled from the spec: the velocity target before the output clamp, the
    proportional term plus the velocity feed-forward. *)
Definition vel_demand (ctl : axis -> bool) (s : PositionControl) (i : axis)
  : float :=
  p_term ctl s i + vget (_vel_sp s) i.

(** Modelled from the spec: the "horizontal resultant magnitude" of a pair. *)
Definition norm_xy (a b : float) : float := fsqrt (a * a + b * b).

(** Modelled from the spec: "horizontal resultant magnitude clamped": a pair
    longer than [lim] is scaled to length [lim], keeping its direction. *)
Definition limit_xy (a b lim : float) : float * float :=
  let n := norm_xy a b in
  if lim <? n then (a * lim / n, b * lim / n) else (a, b).

(** Modelled from the spec: the upward speed limit, from Constraints and
    never above the global one. *)
Definition vel_up_limit (s : PositionControl) : float :=
  fmin (vel_max_z_up (_constraints s)) (up (_VelMaxZ s)).

(** Modelled from the spec: the output clamp of the position loop: the
    "horizontal resultant velocity magnitude clamped to configured horizontal
    max; vertical clamped independently to up/down limits".  The vertical
    axis points down: the velocity lies in [[-up, down]]. *)
Definition vel_target (ctl : axis -> bool) (s : PositionControl) : Vector3f :=
  let (vx, vy) :=
    limit_xy (vel_demand ctl s AX) (vel_demand ctl s AY) (_VelMaxXY s) in
  let vz :=
    constrain (vel_demand ctl s AZ) (- vel_up_limit s) (down (_VelMaxZ s)) in
  mkV vx vy vz.

(** Modelled from the spec: [_positionController], section 4.2: the resolved
    velocity setpoint becomes the clamped velocity target. *)
Definition _positionController (ctl : axis -> bool) (l : Loop) : Loop :=
  on_ctrl (fun s => set_vel_sp (vel_target ctl s) s) l.

(** *** Velocity loop (section 4.3) *)

(** Modelled from the spec: the tilt ceiling: the Constraints value, never
    wider than the global maximum tilt and never above pi/2. *)
Definition tilt_limit (s : PositionControl) : float :=
  fmin (fmin (tilt_max (_constraints s)) (_tilt_max s)) (Fin (PI / 2)).

(** Modelled from the spec: the mode-dependent minimum thrust: the
    stabilized-mode floor when the controller is skipped, the
    position-controlled floor otherwise. *)
Definition thrust_floor (s : PositionControl) : float :=
  if _skipController s then _ThrMinStab s else _ThrMinPosition s.

(** Modelled from the spec: what step 6 hands to step 7: the limited thrust
    and, per axis group, whether its limit engaged. *)
Record Saturation : Type := mkSaturation {
  sat_thrust : Vector3f;
  hit_xy : bool;
  hit_z : bool
}.

(** Modelled from the spec: step 6 of section 4.3, in the order given there:
    "first limit the horizontal thrust magnitude so the implied tilt angle
    <= tilt_max (vector is scaled down proportionally if it would exceed,
    preserving direction); then limit the vertical thrust to [min, max]".
    The horizontal bound is [|z| * tan tilt] for the vertical demand [z]; at
    a ceiling of pi/2 no vector is tilted further and nothing is cut.  The
    two flags say which limit engaged (step 7). *)
Definition saturate (s : PositionControl) (cmd : Vector3f) : Saturation :=
  let t := tilt_limit s in
  let lim := fabs (v2 cmd) * ftan t in
  let below_ceiling := t <? Fin (PI / 2) in
  let (x, y) :=
    if below_ceiling then limit_xy (v0 cmd) (v1 cmd) lim
    else (v0 cmd, v1 cmd) in
  let lo := thrust_floor s in
  let hi := max (_ThrustLimit s) in
  {| sat_thrust := mkV x y (constrain (v2 cmd) lo hi);
     hit_xy := below_ceiling && (lim <? norm_xy (v0 cmd) (v1 cmd));
     hit_z := (v2 cmd <? lo) || (hi <? v2 cmd) |}.

(** Modelled from the spec: step 3: "accumulate Iv * error * dt into the
    persistent integral state ... only while that axis group's prior-cycle
    output was not saturated". *)
Definition integrate (frozen : bool) (acc gain err dt : float) : float :=
  if frozen then acc else acc + gain * err * dt.

(** Modelled from the spec: step 1: "velocity error = velocity_target -
    velocity (per axis)". *)
Definition vel_error (s : PositionControl) (i : axis) : float :=
  vget (_vel_sp s) i - vget (_vel s) i.

(** Modelled from the spec: the anti-windup decision of an axis: the
    horizontal pair shares one saturation flag, the vertical axis has its
    own. *)
Definition frozen (l : Loop) (i : axis) : bool :=
  match i with
  | AX | AY => saturated_xy l
  | AZ => saturated_z l
  end.

(** Modelled from the spec: the integral after step 3. *)
Definition next_integral (dt : float) (l : Loop) : Vector3f :=
  let s := ctrl l in
  vtabulate (fun i =>
    integrate (frozen l i) (vget (_thr_int s) i) (vget (Iv s) i)
      (vel_error s i) dt).

(** Modelled from the spec: steps 1 to 5 on one axis: P + I + D, the
    derivative term on the negated measured velocity derivative. *)
Definition pid_axis (dt : float) (l : Loop) (i : axis) : float :=
  let s := ctrl l in
  vget (Pv s) i * vel_error s i + vget (next_integral dt l) i
  + vget (Dv s) i * (- vget (_vel_dot s) i).

(** Modelled from the spec: the raw thrust command of step 5, with the hover
    thrust added to the vertical axis only.  (The sentence of section 4.3
    on all-zero gains speaks of a thrust setpoint "already computed by the
    resolver"; section 4.1 has the resolver compute none outside the skip
    path, and the numbered steps are followed here.) *)
Definition pid_command (dt : float) (l : Loop) : Vector3f :=
  mkV (pid_axis dt l AX) (pid_axis dt l AY)
      (pid_axis dt l AZ + _ThrHover (ctrl l)).

(** Modelled from the spec: [_velocityController], section 4.3, steps 1 to 7. *)
Definition _velocityController (dt : float) (l : Loop) : Loop :=
  let s := ctrl l in
  let sat := saturate s (pid_command dt l) in
  {| ctrl := set_thr_sp (sat_thrust sat) (set_thr_int (next_integral dt l) s);
     saturated_xy := hit_xy sat;
     saturated_z := hit_z sat;
     yaw_hold := yaw_hold l |}.

(** *** The step *)

(** Modelled from the spec: an elapsed time is valid when it is finite and
    positive (section 7: "Invalid elapsed time (<= 0 or non-finite)"). *)
Definition valid_dt (dt : float) : bool := isfinite dt && (zero <? dt).

(** Modelled from the spec: the skip-controller path of section 4.1: "the
    thrust setpoint passes through from the raw Setpoint unchanged, subject
    still to tilt/thrust saturation"; neither loop runs, so neither the
    integral nor the saturation flags are touched. *)
Definition thrust_passthrough (l : Loop) : Loop :=
  let s := ctrl l in
  on_ctrl (set_thr_sp (sat_thrust (saturate s (_thr_sp s)))) l.

(** Modelled from the spec: the thrust demand the saturation of a step is
    applied to: the raw thrust setpoint when the controller is skipped, the
    PID command of the velocity loop otherwise. *)
Definition thrust_demand (dt : float) (l : Loop) : Vector3f :=
  let l1 := _interfaceMapping l in
  if _skipController (ctrl l1) then _thr_sp (ctrl l1)
  else pid_command dt (_positionController (position_set (ctrl l)) l1).

(** Modelled from the spec: the yaw a step commands is remembered as the
    "last commanded yaw" of section 4.1. *)
Definition remember_yaw (l : Loop) : Loop :=
  {| ctrl := ctrl l; saturated_xy := saturated_xy l;
     saturated_z := saturated_z l; yaw_hold := _yaw_sp (ctrl l) |}.

(** Modelled from the spec: [generateThrustYawSetpoint]: resolver, position
    loop, velocity loop (section 2); both loops bypassed under the
    skip-controller flag (section 4.1); for an invalid elapsed time "defined
    no-op, previous output held, no state corruption" (section 7). *)
Definition generateThrustYawSetpoint (dt : float) (l : Loop) : Loop :=
  if valid_dt dt then
    let l1 := _interfaceMapping l in
    remember_yaw
      (if _skipController (ctrl l1) then thrust_passthrough l1
       else _velocityController dt
              (_positionController (position_set (ctrl l)) l1))
  else l.

(** ** Statements about the header's operations *)

(** Every member but [_thr_int] agrees between two controllers. *)
Definition same_but_thr_int (s s' : PositionControl) : Prop :=
  _pos s' = _pos s /\ _vel s' = _vel s /\ _vel_dot s' = _vel_dot s /\
  _acc s' = _acc s /\ _yaw s' = _yaw s /\
  _pos_sp s' = _pos_sp s /\ _vel_sp s' = _vel_sp s /\ _acc_sp s' = _acc_sp s /\
  _thr_sp s' = _thr_sp s /\ _yaw_sp s' = _yaw_sp s /\
  _yawspeed_sp s' = _yawspeed_sp s /\
  _constraints s' = _constraints s /\
  Pp s' = Pp s /\ Pv s' = Pv s /\ Iv s' = Iv s /\ Dv s' = Dv s /\
  _VelMaxXY s' = _VelMaxXY s /\ _VelMaxZ s' = _VelMaxZ s /\
  _ThrustLimit s' = _ThrustLimit s /\ _ThrHover s' = _ThrHover s /\
  _ThrMinPosition s' = _ThrMinPosition s /\ _ThrMinStab s' = _ThrMinStab s /\
  _tilt_max s' = _tilt_max s /\ _skipController s' = _skipController s /\
  _handles s' = _handles s.

(** What the five accessors return, as the caller sees it after a step. *)
Record Outputs : Type := mkOutputs {
  out_thrust : Vector3f;
  out_yaw : float;
  out_yawspeed : float;
  out_vel_sp : Vector3f;
  out_pos_sp : Vector3f
}.

Definition outputs (s : PositionControl) : Outputs :=
  {| out_thrust := fst (getThrustSetpoint s);
     out_yaw := fst (getYawSetpoint s);
     out_yawspeed := fst (getYawspeedSetpoint s);
     out_vel_sp := fst (getVelSp s);
     out_pos_sp := fst (getPosSp s) |}.

Definition outputs_finite (o : Outputs) : bool :=
  vfinite (out_thrust o) && isfinite (out_yaw o) && isfinite (out_yawspeed o)
  && vfinite (out_vel_sp o) && vfinite (out_pos_sp o).

(** ** Statements about the control step *)

(** The members a step reads beside the setpoints are all finite. *)
Definition finite_env (s : PositionControl) : bool :=
  vfinite (_pos s) && vfinite (_vel s) && vfinite (_vel_dot s)
  && vfinite (_thr_int s)
  && isfinite (tilt_max (_constraints s))
  && isfinite (vel_max_z_up (_constraints s))
  && vfinite (Pp s) && vfinite (Pv s) && vfinite (Iv s) && vfinite (Dv s)
  && isfinite (_VelMaxXY s)
  && isfinite (up (_VelMaxZ s)) && isfinite (down (_VelMaxZ s))
  && isfinite (max (_ThrustLimit s))
  && isfinite (_ThrHover s)
  && isfinite (_ThrMinPosition s) && isfinite (_ThrMinStab s)
  && isfinite (_tilt_max s).

(** Every setpoint member is finite: nothing is unset. *)
Definition setpoint_finite (s : PositionControl) : bool :=
  vfinite (_pos_sp s) && vfinite (_vel_sp s) && vfinite (_acc_sp s)
  && vfinite (_thr_sp s) && isfinite (_yaw_sp s) && isfinite (_yawspeed_sp s).

(** Every numeric member is finite. *)
Definition all_finite (s : PositionControl) : bool :=
  finite_env s && setpoint_finite s && vfinite (_acc s) && isfinite (_yaw s)
  && isfinite (min (_ThrustLimit s)).

(** "Invalid elapsed time (<= 0 or non-finite)". *)
Definition dt_invalid (dt : float) : Prop :=
  match dt with
  | Fin d => (d <= 0)%R
  | _ => True
  end.

(** The tilt a thrust vector implies: the angle between the vector and the
    vertical axis. *)
Definition tilt_angle (x y z : R) : R :=
  if Reqb z 0
  then (if Reqb (sqrt (x * x + y * y)) 0 then 0 else PI / 2)%R
  else atan (sqrt (x * x + y * y) / Rabs z).

(** A setpoint field with every non-finite value replaced by the sentinel. *)
Definition as_sentinel (a : float) : float := if isfinite a then a else NaN.

Definition vsentinel (v : Vector3f) : Vector3f :=
  vtabulate (fun i => as_sentinel (vget v i)).

(** The position, velocity, yaw and yaw-rate setpoints with their non-finite
    values replaced by the sentinel. *)
Definition unset_nonfinite (l : Loop) : Loop :=
  let s := ctrl l in
  on_ctrl (fun _ =>
    with_setpoints s (vsentinel (_pos_sp s)) (vsentinel (_vel_sp s))
      (_thr_sp s) (as_sentinel (_yaw_sp s)) (as_sentinel (_yawspeed_sp s))
      (_thr_int s)) l.

(** ** Sample controllers *)

Definition vzero : Vector3f := mkV zero zero zero.
Definition vunset : Vector3f := mkV NaN NaN NaN.
Definition vconst (r : R) : Vector3f := mkV (Fin r) (Fin r) (Fin r).

Definition sample_handles : ParamHandles :=
  (mkParamHandles 3 1 2 3 4 5 6 7 8 9 10 11 12 13 14 15)%Z.

(** A vehicle at rest at the origin with unit position and velocity gains, an
    integral gain [iv], a tilt constraint of pi/4, thrust in
    [[0.12, 1]] when position-controlled and from [0.08] when stabilized, and
    the position, velocity and thrust setpoints given; the yaw and yaw-rate
    setpoints are zero. *)
Definition sample (pos_sp vel_sp thr_sp : Vector3f) (iv : R) (skip : bool)
  : PositionControl :=
  {| _pos := vzero; _vel := vzero; _vel_dot := vzero; _acc := vzero;
     _yaw := zero;
     _pos_sp := pos_sp; _vel_sp := vel_sp; _acc_sp := vzero;
     _thr_sp := thr_sp; _yaw_sp := zero; _yawspeed_sp := zero;
     _thr_int := vzero;
     _constraints := mkConstraints (Fin (PI / 4)) (Fin 3);
     Pp := vconst 1; Pv := vconst 1; Iv := vconst iv; Dv := vzero;
     _VelMaxXY := Fin 12;
     _VelMaxZ := mkDirectionD (Fin 3) (Fin 1);
     _ThrustLimit := mkLimits (Fin 1) (Fin (3 / 25));
     _ThrHover := Fin (1 / 2);
     _ThrMinPosition := Fin (3 / 25);
     _ThrMinStab := Fin (2 / 25);
     _tilt_max := Fin (3 / 2);
     _skipController := skip;
     _handles := sample_handles |}.

Definition sample_loop (s : PositionControl) (sat_xy sat_z : bool) : Loop :=
  {| ctrl := s; saturated_xy := sat_xy; saturated_z := sat_z;
     yaw_hold := zero |}.

(** Holding the origin with a velocity feed-forward whose vertical thrust
    demand, 1.5, is above the thrust maximum; every setpoint field is
    finite. *)
Definition lean_hard : Loop :=
  sample_loop
    (sample vzero (mkV (Fin (3 / 2)) (Fin 0) (Fin 1)) vzero 0 false)
    false false.

(** No position setpoint; a velocity setpoint on two axes only. *)
Definition velocity_only : Loop :=
  sample_loop
    (sample vunset (mkV (Fin (3 / 2)) NaN (Fin 1)) vunset 0 false)
    false false.

(** A position target above the vehicle with a downward feed-forward. *)
Definition target_with_feedforward : Loop :=
  sample_loop
    (sample (mkV (Fin 0) (Fin 0) (Fin (-1)))
            (mkV (Fin 0) (Fin 0) (Fin (1 / 2))) vzero (1 / 10) false)
    false false.

(** The same with both saturation flags set by the cycle before. *)
Definition target_saturated : Loop :=
  sample_loop (ctrl target_with_feedforward) true true.

(** Idle: every setpoint member zero, as the in-class initialisers leave
    them. *)
Definition idle (skip : bool) : Loop :=
  sample_loop (sample vzero vzero vzero 0 skip) false false.

(** Stabilized mode without a thrust setpoint, and an infinite velocity
    setpoint on one axis. *)
Definition stabilized_no_thrust : Loop :=
  sample_loop (sample vunset (mkV PInf NaN NaN) vunset 0 true) false false.

(** A setpoint with infinities where a field is not meant to be used. *)
Definition wild_setpoint : Loop :=
  sample_loop
    (sample (mkV PInf NaN (Fin (-1))) (mkV NInf NaN (Fin (1 / 2))) vunset
       (1 / 10) false)
    false false.

(** Stabilized mode with a stick thrust. *)
Definition stabilized_stick : Loop :=
  sample_loop
    (sample vunset vunset (mkV (Fin (1 / 10)) (Fin 0) (Fin (1 / 2))) 0 true)
    false false.

(** ** Facts about floats and vectors *)

Lemma Rltb_true (x y : R) : (x < y)%R -> Rltb x y = true.
Proof. unfold Rltb; destruct (Rlt_dec x y); [reflexivity | contradiction]. Qed.

Lemma Rltb_false (x y : R) : (y <= x)%R -> Rltb x y = false.
Proof. unfold Rltb; destruct (Rlt_dec x y); [lra | reflexivity]. Qed.

Lemma Rltb_spec (x y : R) : Rltb x y = true <-> (x < y)%R.
Proof.
  unfold Rltb; destruct (Rlt_dec x y); split; try easy.
Qed.

Lemma Rltb_false_iff (x y : R) : Rltb x y = false <-> (y <= x)%R.
Proof.
  unfold Rltb; destruct (Rlt_dec x y); split; try easy; lra.
Qed.

Lemma Reqb_true (x y : R) : x = y -> Reqb x y = true.
Proof. unfold Reqb; destruct (Req_dec_T x y); [reflexivity | contradiction]. Qed.

Lemma Reqb_false (x y : R) : x <> y -> Reqb x y = false.
Proof. unfold Reqb; destruct (Req_dec_T x y); [contradiction | reflexivity]. Qed.

Lemma isfinite_Fin (a : float) : isfinite a = true -> exists r, a = Fin r.
Proof. destruct a; try discriminate; eauto. Qed.

Lemma vget_tabulate (f : axis -> float) (i : axis) :
  vget (vtabulate f) i = f i.
Proof. destruct i; reflexivity. Qed.

Lemma vget_vset_same (v : Vector3f) (i : axis) (a : float) :
  vget (vset v i a) i = a.
Proof. destruct i; reflexivity. Qed.

Lemma vget_vset_other (v : Vector3f) (i j : axis) (a : float) :
  i <> j -> vget (vset v i a) j = vget v j.
Proof. destruct i, j; intros H; try reflexivity; now elim H. Qed.

Lemma vfinite_get (v : Vector3f) :
  vfinite v = true -> forall i, isfinite (vget v i) = true.
Proof.
  unfold vfinite; intros H i.
  apply andb_true_iff in H as [H Hz]; apply andb_true_iff in H as [Hx Hy].
  destruct i; assumption.
Qed.

Lemma vfinite_Fin (v : Vector3f) :
  vfinite v = true -> exists x y z, v = mkV (Fin x) (Fin y) (Fin z).
Proof.
  destruct v as [a b c]; unfold vfinite; cbn.
  destruct a, b, c; try discriminate; eauto.
Qed.

(** ** Evaluating on concrete controllers *)

Ltac r_decide :=
  repeat match goal with
  | |- context [Rltb ?a ?b] =>
      first [ rewrite (Rltb_true a b) by lra | rewrite (Rltb_false a b) by lra ]
  | |- context [Reqb ?a ?b] =>
      first [ rewrite (Reqb_true a b) by lra | rewrite (Reqb_false a b) by lra ]
  end.

Ltac fcbv :=
  cbv -[Rplus Rmult Rminus Ropp Rdiv Rinv Rltb Reqb sqrt tan PI Rabs IZR atan
        Rle Rlt Rge Rgt].

Ltac sqrt_is v :=
  match goal with
  | |- context [sqrt ?e] =>
      replace (sqrt e) with v
        by (symmetry; replace e with (v * v)%R by lra; apply sqrt_square; lra)
  end.

Ltac pi_facts := pose proof PI_RGT_0; pose proof PI_4; pose proof PI2_3_2.

Ltac feval := repeat (progress (fcbv; r_decide)).

Ltac fin_eq :=
  repeat match goal with
  | |- Fin _ = Fin _ => apply f_equal; lra
  | |- (_, _) = (_, _) => apply f_equal2
  | |- mkV _ _ _ = mkV _ _ _ => apply f_equal3
  | |- ?a = ?a => reflexivity
  end.

(** ** Facts about the float operations *)

Lemma fle_Fin (a b : R) : fle (Fin a) (Fin b) = true <-> (a <= b)%R.
Proof.
  cbn; unfold Rltb; destruct (Rlt_dec b a); cbn; split; intros; try lra;
    try easy.
Qed.

Lemma fle_zero_inv (a : float) :
  isfinite a = true -> fle zero a = true -> exists r, a = Fin r /\ (0 <= r)%R.
Proof.
  destruct a; try discriminate; intros _ H.
  apply fle_Fin in H; eauto.
Qed.

Lemma fadd_zero_l (a : float) : zero + a = a.
Proof. destruct a; cbn; try reflexivity; now rewrite Rplus_0_l. Qed.

Lemma fmin_Fin (a b : R) :
  fmin (Fin a) (Fin b) = Fin (Rmin a b).
Proof.
  unfold fmin, Rmin; cbn; unfold Rltb.
  destruct (Rlt_dec b a), (Rle_dec a b); try reflexivity; lra.
Qed.

Lemma constrain_Fin (v lo hi : R) :
  constrain (Fin v) (Fin lo) (Fin hi)
  = Fin (if Rltb v lo then lo else if Rltb hi v then hi else v).
Proof.
  unfold constrain; cbn.
  destruct (Rltb v lo); [reflexivity |]; now destruct (Rltb hi v).
Qed.

Lemma constrain_bounds (v lo hi : R) :
  (lo <= hi)%R ->
  exists r, constrain (Fin v) (Fin lo) (Fin hi) = Fin r /\ (lo <= r <= hi)%R.
Proof.
  intros Hle; rewrite constrain_Fin; eexists; split; [reflexivity |].
  unfold Rltb; destruct (Rlt_dec v lo); [lra |].
  destruct (Rlt_dec hi v); lra.
Qed.

Lemma norm_xy_Fin (a b : R) :
  norm_xy (Fin a) (Fin b) = Fin (sqrt (a * a + b * b)).
Proof.
  unfold norm_xy; cbn; rewrite Rltb_false; [reflexivity | nra].
Qed.

Lemma Rdiv_unit_interval (x y : R) :
  (0 <= x)%R -> (x < y)%R -> (0 <= x / y <= 1)%R.
Proof.
  intros Hx Hy.
  assert (Hi : (0 < / y)%R) by (apply Rinv_0_lt_compat; lra).
  assert (H1 : (y * / y = 1)%R) by (field; lra).
  unfold Rdiv; split; nra.
Qed.

Lemma sqrt_scaled (k a b : R) :
  (0 <= k)%R ->
  sqrt (k * a * (k * a) + k * b * (k * b)) = (k * sqrt (a * a + b * b))%R.
Proof.
  intros Hk.
  replace (k * a * (k * a) + k * b * (k * b))%R
    with (k * k * (a * a + b * b))%R by ring.
  rewrite sqrt_mult; [| nra | nra].
  now rewrite sqrt_square.
Qed.

(** The horizontal limit on finite values: the pair is multiplied by a factor
    in [[0, 1]] and its length does not exceed the limit; it is the limit
    when the pair was longer, and the pair is untouched otherwise. *)
Lemma limit_xy_Fin (a b lim : R) :
  (0 <= lim)%R ->
  exists k,
    (0 <= k <= 1)%R /\
    limit_xy (Fin a) (Fin b) (Fin lim) = (Fin (k * a), Fin (k * b)) /\
    (sqrt (k * a * (k * a) + k * b * (k * b)) <= lim)%R /\
    (Rltb lim (sqrt (a * a + b * b)) = false -> k = 1%R) /\
    (Rltb lim (sqrt (a * a + b * b)) = true ->
     sqrt (k * a * (k * a) + k * b * (k * b)) = lim).
Proof.
  intros Hlim; unfold limit_xy; rewrite norm_xy_Fin.
  set (n := sqrt (a * a + b * b)).
  assert (Hn : (0 <= n)%R) by apply sqrt_pos.
  cbn [flt]; destruct (Rltb lim n) eqn:Hcut.
  - apply Rltb_spec in Hcut.
    assert (Hk : (0 <= lim / n <= 1)%R) by (apply Rdiv_unit_interval; lra).
    assert (Hlen : sqrt (lim / n * a * (lim / n * a)
                         + lim / n * b * (lim / n * b)) = lim).
    { rewrite sqrt_scaled by apply Hk; fold n; field; lra. }
    exists (lim / n)%R; split; [exact Hk |]; split; [| split; [| split]].
    + cbn; rewrite (Reqb_false n 0) by lra.
      f_equal; f_equal; field; lra.
    + rewrite Hlen; lra.
    + discriminate.
    + intros _; exact Hlen.
  - apply Rltb_false_iff in Hcut.
    exists 1%R; split; [lra |]; split; [| split; [| split]].
    + f_equal; f_equal; ring.
    + rewrite sqrt_scaled by lra; fold n; lra.
    + reflexivity.
    + discriminate.
Qed.

Lemma constrain_inside (v lo hi : R) :
  (lo <= v <= hi)%R -> constrain (Fin v) (Fin lo) (Fin hi) = Fin v.
Proof.
  intros [Hlo Hhi]; rewrite constrain_Fin.
  now rewrite (Rltb_false v lo), (Rltb_false hi v).
Qed.

Lemma limit_xy_inside (x y m : R) :
  (sqrt (x * x + y * y) <= m)%R ->
  limit_xy (Fin x) (Fin y) (Fin m) = (Fin x, Fin y).
Proof.
  intros H; unfold limit_xy; rewrite norm_xy_Fin; cbn [flt].
  now rewrite Rltb_false.
Qed.

(** ** Unfolding a step *)

Lemma valid_dt_Fin (d : R) : (0 < d)%R -> valid_dt (Fin d) = true.
Proof. intros H; unfold valid_dt; cbn; now apply Rltb_true. Qed.

Lemma invalid_dt (dt : float) : dt_invalid dt -> valid_dt dt = false.
Proof.
  destruct dt; cbn; try reflexivity.
  intros H; now apply Rltb_false.
Qed.

Lemma generate_invalid (dt : float) (l : Loop) :
  valid_dt dt = false -> generateThrustYawSetpoint dt l = l.
Proof. unfold generateThrustYawSetpoint; now intros ->. Qed.

Lemma generate_skip (dt : float) (l : Loop) :
  valid_dt dt = true -> _skipController (ctrl l) = true ->
  generateThrustYawSetpoint dt l
  = remember_yaw (thrust_passthrough (_interfaceMapping l)).
Proof.
  unfold generateThrustYawSetpoint; intros -> Hs.
  change (_skipController (ctrl (_interfaceMapping l)))
    with (_skipController (ctrl l)).
  now rewrite Hs.
Qed.

Lemma generate_run (dt : float) (l : Loop) :
  valid_dt dt = true -> _skipController (ctrl l) = false ->
  generateThrustYawSetpoint dt l
  = remember_yaw
      (_velocityController dt
         (_positionController (position_set (ctrl l)) (_interfaceMapping l))).
Proof.
  unfold generateThrustYawSetpoint; intros -> Hs.
  change (_skipController (ctrl (_interfaceMapping l)))
    with (_skipController (ctrl l)).
  now rewrite Hs.
Qed.

(** The limits a saturation reads are not written by the resolver or the
    position loop. *)
Lemma saturate_after_loops (ctl : axis -> bool) (l : Loop) (cmd : Vector3f) :
  saturate (ctrl (_positionController ctl (_interfaceMapping l))) cmd
  = saturate (ctrl l) cmd.
Proof. reflexivity. Qed.

(** The thrust a valid step leaves is the saturated thrust demand. *)
Lemma generate_thrust (dt : float) (l : Loop) :
  valid_dt dt = true ->
  _thr_sp (ctrl (generateThrustYawSetpoint dt l))
  = sat_thrust (saturate (ctrl l) (thrust_demand dt l)).
Proof.
  intros Hv; unfold thrust_demand.
  change (_skipController (ctrl (_interfaceMapping l)))
    with (_skipController (ctrl l)).
  destruct (_skipController (ctrl l)) eqn:Hs.
  - now rewrite generate_skip.
  - now rewrite generate_run.
Qed.

Lemma generate_vel_sp (dt : float) (l : Loop) :
  valid_dt dt = true -> _skipController (ctrl l) = false ->
  _vel_sp (ctrl (generateThrustYawSetpoint dt l))
  = vel_target (position_set (ctrl l)) (ctrl (_interfaceMapping l)).
Proof. intros Hv Hs; now rewrite generate_run. Qed.

Lemma vel_target_z (ctl : axis -> bool) (s : PositionControl) :
  v2 (vel_target ctl s)
  = constrain (vel_demand ctl s AZ) (- vel_up_limit s) (down (_VelMaxZ s)).
Proof. unfold vel_target; now destruct (limit_xy _ _ _). Qed.

Lemma vel_target_xy (ctl : axis -> bool) (s : PositionControl) :
  (v0 (vel_target ctl s), v1 (vel_target ctl s))
  = limit_xy (vel_demand ctl s AX) (vel_demand ctl s AY) (_VelMaxXY s).
Proof. unfold vel_target; now destruct (limit_xy _ _ _). Qed.

Lemma saturate_z (s : PositionControl) (cmd : Vector3f) :
  v2 (sat_thrust (saturate s cmd))
  = constrain (v2 cmd) (thrust_floor s) (max (_ThrustLimit s)).
Proof.
  unfold saturate.
  destruct (tilt_limit s <? Fin (PI / 2)); [destruct (limit_xy _ _ _) |];
    reflexivity.
Qed.

(** ** Finite values stay finite *)

Ltac split_andb H :=
  repeat match type of H with
  | (_ && _)%bool = true =>
      let H' := fresh "Hfin" in
      apply andb_true_iff in H; destruct H as [H H']
  end.

Lemma isfinite_resolved (a b : float) :
  isfinite b = true -> isfinite (if is_set a then a else b) = true.
Proof. unfold is_set; destruct (isfinite a) eqn:E; auto. Qed.

Lemma vfinite_tabulate (f : axis -> float) :
  (forall i, isfinite (f i) = true) -> vfinite (vtabulate f) = true.
Proof.
  intros H; unfold vfinite, vtabulate; cbn.
  now rewrite (H AX), (H AY), (H AZ).
Qed.

Lemma fmin_finite (a b : float) :
  isfinite a = true -> isfinite b = true -> isfinite (fmin a b) = true.
Proof. unfold fmin; destruct (b <? a); auto. Qed.

Lemma constrain_finite (v lo hi : float) :
  isfinite v = true -> isfinite lo = true -> isfinite hi = true ->
  isfinite (constrain v lo hi) = true.
Proof. unfold constrain; destruct (v <? lo), (hi <? v); auto. Qed.

Lemma fopp_finite (a : float) : isfinite a = true -> isfinite (- a) = true.
Proof. now destruct a. Qed.

Lemma fadd_finite (a b : float) :
  isfinite a = true -> isfinite b = true -> isfinite (a + b) = true.
Proof. now destruct a, b. Qed.

Lemma fsub_finite (a b : float) :
  isfinite a = true -> isfinite b = true -> isfinite (a - b) = true.
Proof. now destruct a, b. Qed.

Lemma fmul_finite (a b : float) :
  isfinite a = true -> isfinite b = true -> isfinite (a * b) = true.
Proof. now destruct a, b. Qed.

Create HintDb finite.

#[local] Hint Resolve fmin_finite constrain_finite fopp_finite fadd_finite
  fsub_finite fmul_finite vfinite_get : finite.

Lemma limit_xy_finite (a b lim : float) :
  isfinite a = true -> isfinite b = true -> isfinite lim = true ->
  fle zero lim = true ->
  isfinite (fst (limit_xy a b lim)) = true
  /\ isfinite (snd (limit_xy a b lim)) = true.
Proof.
  intros Ha Hb Hl Hpos.
  destruct (isfinite_Fin a Ha) as [x ->], (isfinite_Fin b Hb) as [y ->].
  destruct (fle_zero_inv lim Hl Hpos) as [r [-> Hr]].
  destruct (limit_xy_Fin x y r Hr) as [k [_ [-> _]]]; now split.
Qed.

Lemma p_term_finite (ctl : axis -> bool) (s : PositionControl) (i : axis) :
  vfinite (Pp s) = true -> vfinite (_pos_sp s) = true ->
  vfinite (_pos s) = true ->
  isfinite (p_term ctl s i) = true.
Proof.
  intros; unfold p_term; destruct (ctl i); auto with finite.
Qed.

Lemma vel_demand_finite (ctl : axis -> bool) (s : PositionControl) (i : axis) :
  vfinite (Pp s) = true -> vfinite (_pos_sp s) = true ->
  vfinite (_pos s) = true -> vfinite (_vel_sp s) = true ->
  isfinite (vel_demand ctl s i) = true.
Proof.
  intros; unfold vel_demand; auto using p_term_finite with finite.
Qed.

Lemma resolver_pos_sp_finite (l : Loop) :
  vfinite (_pos (ctrl l)) = true ->
  vfinite (_pos_sp (ctrl (_interfaceMapping l))) = true.
Proof.
  intros H; apply vfinite_tabulate; intros i.
  apply isfinite_resolved; auto with finite.
Qed.

Lemma resolver_vel_sp_finite (l : Loop) :
  vfinite (_vel_sp (ctrl (_interfaceMapping l))) = true.
Proof.
  apply vfinite_tabulate; intros i; now apply isfinite_resolved.
Qed.

Lemma resolver_yaw_finite (l : Loop) :
  isfinite (yaw_hold l) = true ->
  isfinite (_yaw_sp (ctrl (_interfaceMapping l))) = true.
Proof. intros H; now apply isfinite_resolved. Qed.

Lemma resolver_yawspeed_finite (l : Loop) :
  isfinite (_yawspeed_sp (ctrl (_interfaceMapping l))) = true.
Proof. now apply isfinite_resolved. Qed.

Lemma vel_target_z_finite (ctl : axis -> bool) (s : PositionControl) :
  finite_env s = true -> vfinite (_pos_sp s) = true ->
  vfinite (_vel_sp s) = true ->
  isfinite (v2 (vel_target ctl s)) = true.
Proof.
  intros He Hp Hv; unfold finite_env in He; split_andb He.
  unfold vel_target; destruct (limit_xy _ _ _); cbn [v2].
  apply constrain_finite; auto using vel_demand_finite.
  apply fopp_finite, fmin_finite; assumption.
Qed.

Lemma vel_target_finite (ctl : axis -> bool) (s : PositionControl) :
  finite_env s = true -> fle zero (_VelMaxXY s) = true ->
  vfinite (_pos_sp s) = true -> vfinite (_vel_sp s) = true ->
  vfinite (vel_target ctl s) = true.
Proof.
  intros He Hx Hp Hv.
  pose proof (vel_target_z_finite ctl s He Hp Hv) as Hz.
  unfold finite_env in He; split_andb He.
  unfold vel_target in *.
  destruct (limit_xy_finite (vel_demand ctl s AX) (vel_demand ctl s AY)
              (_VelMaxXY s)) as [H0 H1]; auto using vel_demand_finite.
  destruct (limit_xy _ _ _) as [vx vy]; cbn in *.
  unfold vfinite; cbn; now rewrite H0, H1, Hz.
Qed.

Lemma integrate_finite (frozen : bool) (acc gain err dt : float) :
  isfinite acc = true -> isfinite gain = true -> isfinite err = true ->
  isfinite dt = true ->
  isfinite (integrate frozen acc gain err dt) = true.
Proof. intros; unfold integrate; destruct frozen; auto with finite. Qed.

Lemma vel_error_finite (s : PositionControl) (i : axis) :
  isfinite (vget (_vel_sp s) i) = true -> vfinite (_vel s) = true ->
  isfinite (vel_error s i) = true.
Proof. intros; unfold vel_error; auto with finite. Qed.

Lemma next_integral_finite (dt : float) (l : Loop) (i : axis) :
  finite_env (ctrl l) = true -> isfinite dt = true ->
  isfinite (vget (_vel_sp (ctrl l)) i) = true ->
  isfinite (vget (next_integral dt l) i) = true.
Proof.
  intros He Hd Hv; unfold finite_env in He; split_andb He.
  unfold next_integral; rewrite vget_tabulate.
  apply integrate_finite; auto using vel_error_finite with finite.
Qed.

Lemma pid_axis_finite (dt : float) (l : Loop) (i : axis) :
  finite_env (ctrl l) = true -> isfinite dt = true ->
  isfinite (vget (_vel_sp (ctrl l)) i) = true ->
  isfinite (pid_axis dt l i) = true.
Proof.
  intros He Hd Hv.
  pose proof (next_integral_finite dt l i He Hd Hv) as Hi.
  unfold finite_env in He; split_andb He.
  unfold pid_axis; auto 8 using vel_error_finite with finite.
Qed.

Lemma pid_command_z_finite (dt : float) (l : Loop) :
  finite_env (ctrl l) = true -> isfinite dt = true ->
  isfinite (v2 (_vel_sp (ctrl l))) = true ->
  isfinite (v2 (pid_command dt l)) = true.
Proof.
  intros He Hd Hv; unfold pid_command; cbn [v2].
  apply fadd_finite; [now apply pid_axis_finite |].
  unfold finite_env in He; split_andb He; assumption.
Qed.

Lemma pid_command_finite (dt : float) (l : Loop) :
  finite_env (ctrl l) = true -> isfinite dt = true ->
  vfinite (_vel_sp (ctrl l)) = true ->
  vfinite (pid_command dt l) = true.
Proof.
  intros He Hd Hv.
  pose proof (pid_command_z_finite dt l He Hd (vfinite_get _ Hv AZ)) as Hz.
  unfold pid_command in *; cbn [v2] in Hz.
  unfold vfinite; cbn [v0 v1 v2].
  rewrite (pid_axis_finite dt l AX He Hd (vfinite_get _ Hv AX)).
  rewrite (pid_axis_finite dt l AY He Hd (vfinite_get _ Hv AY)).
  now rewrite Hz.
Qed.

(** The thrust demand of a step on finite inputs is finite. *)
Lemma thrust_demand_finite (d : R) (l : Loop) :
  finite_env (ctrl l) = true ->
  fle zero (_VelMaxXY (ctrl l)) = true ->
  (_skipController (ctrl l) = true -> vfinite (_thr_sp (ctrl l)) = true) ->
  vfinite (thrust_demand (Fin d) l) = true.
Proof.
  intros He Hx Hs; unfold thrust_demand.
  change (_skipController (ctrl (_interfaceMapping l)))
    with (_skipController (ctrl l)).
  destruct (_skipController (ctrl l)); [now apply Hs |].
  assert (Hp : vfinite (_pos (ctrl l)) = true)
    by (unfold finite_env in He; split_andb He; assumption).
  apply pid_command_finite; [exact He | reflexivity |].
  apply (vel_target_finite _ (ctrl (_interfaceMapping l)));
    [exact He | exact Hx | now apply resolver_pos_sp_finite
    | apply resolver_vel_sp_finite].
Qed.

Lemma thrust_demand_z_finite (d : R) (l : Loop) :
  finite_env (ctrl l) = true ->
  (_skipController (ctrl l) = true ->
   isfinite (v2 (_thr_sp (ctrl l))) = true) ->
  isfinite (v2 (thrust_demand (Fin d) l)) = true.
Proof.
  intros He Hs; unfold thrust_demand.
  change (_skipController (ctrl (_interfaceMapping l)))
    with (_skipController (ctrl l)).
  destruct (_skipController (ctrl l)); [now apply Hs |].
  assert (Hp : vfinite (_pos (ctrl l)) = true)
    by (unfold finite_env in He; split_andb He; assumption).
  apply pid_command_z_finite; [exact He | reflexivity |].
  apply (vel_target_z_finite _ (ctrl (_interfaceMapping l)));
    [exact He | now apply resolver_pos_sp_finite
    | apply resolver_vel_sp_finite].
Qed.

Lemma finite_env_tilt (s : PositionControl) :
  finite_env s = true ->
  exists c g, tilt_max (_constraints s) = Fin c /\ _tilt_max s = Fin g.
Proof.
  intros He; unfold finite_env in He; split_andb He.
  destruct (isfinite_Fin (tilt_max (_constraints s))) as [c Hc]; [assumption |].
  destruct (isfinite_Fin (_tilt_max s)) as [g Hg]; [assumption |].
  eauto.
Qed.

Lemma finite_env_thrust_limits (s : PositionControl) :
  finite_env s = true ->
  exists lo hi, thrust_floor s = Fin lo /\ max (_ThrustLimit s) = Fin hi.
Proof.
  intros He; unfold finite_env in He; split_andb He.
  destruct (isfinite_Fin (max (_ThrustLimit s))) as [hi Hhi]; [assumption |].
  unfold thrust_floor; destruct (_skipController s).
  - destruct (isfinite_Fin (_ThrMinStab s)) as [lo Hlo]; eauto.
  - destruct (isfinite_Fin (_ThrMinPosition s)) as [lo Hlo]; eauto.
Qed.

(** ** The tilt ceiling and the saturation *)

Lemma tilt_limit_Fin (s : PositionControl) (c g : R) :
  tilt_max (_constraints s) = Fin c -> _tilt_max s = Fin g ->
  tilt_limit s = Fin (Rmin (Rmin c g) (PI / 2)).
Proof.
  intros Hc Hg; unfold tilt_limit; rewrite Hc, Hg.
  now rewrite !fmin_Fin.
Qed.

Lemma tilt_limit_ceiling (s : PositionControl) (t : R) :
  tilt_limit s = Fin t -> (t <= PI / 2)%R.
Proof.
  unfold tilt_limit, fmin at 1.
  destruct (fmin (tilt_max (_constraints s)) (_tilt_max s)) as [r | | |];
    cbn; try discriminate.
  - unfold Rltb; destruct (Rlt_dec (PI / 2) r); intros [= <-]; lra.
  - intros [= <-]; lra.
Qed.

Lemma tan_nonneg (t : R) : (0 <= t < PI / 2)%R -> (0 <= tan t)%R.
Proof.
  intros [[Hpos | <-] Hlt].
  - left; now apply tan_gt_0.
  - rewrite tan_0; lra.
Qed.

Lemma atan_monotone (x y : R) : (x <= y)%R -> (atan x <= atan y)%R.
Proof.
  intros [Hlt | ->]; [left; now apply atan_increasing | right; reflexivity].
Qed.

Lemma tilt_angle_range (x y z : R) : (0 <= tilt_angle x y z <= PI / 2)%R.
Proof.
  pose proof PI_RGT_0 as Hpi.
  unfold tilt_angle.
  destruct (Reqb z 0) eqn:Hz.
  - destruct (Reqb (sqrt (x * x + y * y)) 0); lra.
  - assert (Hz' : z <> 0%R)
      by (intros ->; rewrite Reqb_true in Hz; [discriminate | reflexivity]).
    assert (Ha : (0 < Rabs z)%R) by now apply Rabs_pos_lt.
    pose proof (sqrt_pos (x * x + y * y)) as Hn.
    pose proof (atan_bound (sqrt (x * x + y * y) / Rabs z)) as Hb.
    split; [| lra].
    rewrite <- atan_0; apply atan_monotone.
    unfold Rdiv; apply Rmult_le_pos;
      [assumption | left; now apply Rinv_0_lt_compat].
Qed.

(** A horizontal length within [|z| * tan t] is a tilt of at most [t]. *)
Lemma tilt_angle_le (x y z t : R) :
  (0 <= t < PI / 2)%R ->
  (sqrt (x * x + y * y) <= Rabs z * tan t)%R ->
  (tilt_angle x y z <= t)%R.
Proof.
  intros Ht Hn.
  pose proof (sqrt_pos (x * x + y * y)) as Hpos.
  unfold tilt_angle.
  destruct (Reqb z 0) eqn:Hz.
  - assert (z = 0%R) as ->
      by (unfold Reqb in Hz; destruct (Req_dec_T z 0); [assumption | discriminate]).
    rewrite Rabs_R0, Rmult_0_l in Hn.
    rewrite Reqb_true by lra; lra.
  - assert (Hz' : z <> 0%R)
      by (intros ->; rewrite Reqb_true in Hz; [discriminate | reflexivity]).
    assert (Ha : (0 < Rabs z)%R) by now apply Rabs_pos_lt.
    rewrite <- (atan_tan t) by lra.
    apply atan_monotone.
    apply (Rmult_le_reg_r (Rabs z)); [assumption |].
    unfold Rdiv; rewrite Rmult_assoc, Rinv_l by lra.
    lra.
Qed.

(** A longer vertical component tilts the same horizontal pair less. *)
Lemma tilt_angle_antitone (x y z z' : R) :
  (Rabs z <= Rabs z')%R -> (tilt_angle x y z' <= tilt_angle x y z)%R.
Proof.
  intros Hz.
  pose proof (sqrt_pos (x * x + y * y)) as Hpos.
  pose proof (tilt_angle_range x y z') as Hr.
  unfold tilt_angle in *.
  destruct (Reqb z 0) eqn:E.
  - destruct (Reqb (sqrt (x * x + y * y)) 0) eqn:En; [| lra].
    assert (Hn : sqrt (x * x + y * y) = 0%R)
      by (unfold Reqb in En; destruct (Req_dec_T _ 0); [assumption | discriminate]).
    rewrite Hn in *.
    destruct (Reqb z' 0).
    + lra.
    + unfold Rdiv; rewrite Rmult_0_l, atan_0; lra.
  - assert (Hz0 : z <> 0%R)
      by (intros ->; rewrite Reqb_true in E; [discriminate | reflexivity]).
    assert (Ha : (0 < Rabs z)%R) by now apply Rabs_pos_lt.
    assert (Hz1 : z' <> 0%R)
      by (intros ->; rewrite Rabs_R0 in Hz; lra).
    rewrite (Reqb_false z' 0) by assumption.
    apply atan_monotone.
    unfold Rdiv; apply Rmult_le_compat_l; [assumption |].
    apply Rinv_le_contravar; assumption.
Qed.

(** The saturation of a finite demand: the horizontal pair is multiplied by a
    factor in [[0, 1]], the vertical component is clamped, and the tilt of the
    limited pair against the vertical demand is within the ceiling; where the
    horizontal limit engaged the pair has exactly the length [|z| * tan t]. *)
Lemma saturate_Fin (s : PositionControl) (x y z t : R) :
  tilt_limit s = Fin t -> (0 <= t)%R ->
  exists k,
    (0 <= k <= 1)%R /\
    sat_thrust (saturate s (mkV (Fin x) (Fin y) (Fin z)))
    = mkV (Fin (k * x)) (Fin (k * y))
          (constrain (Fin z) (thrust_floor s) (max (_ThrustLimit s))) /\
    (tilt_angle (k * x) (k * y) z <= t)%R /\
    (hit_xy (saturate s (mkV (Fin x) (Fin y) (Fin z))) = false -> k = 1%R) /\
    (hit_xy (saturate s (mkV (Fin x) (Fin y) (Fin z))) = true ->
     (t < PI / 2)%R /\
     sqrt (k * x * (k * x) + k * y * (k * y)) = (Rabs z * tan t)%R).
Proof.
  intros Ht Hpos.
  pose proof (tilt_limit_ceiling s t Ht) as Hceil.
  unfold saturate; rewrite Ht; cbn [v0 v1 v2 flt fabs ftan fmul].
  destruct (Rltb t (PI / 2)) eqn:Hb.
  - apply Rltb_spec in Hb.
    assert (Hlim : (0 <= Rabs z * tan t)%R).
    { apply Rmult_le_pos; [apply Rabs_pos | apply tan_nonneg; lra]. }
    destruct (limit_xy_Fin x y (Rabs z * tan t) Hlim)
      as [k [Hk [Heq [Hlen [Hone Hexact]]]]].
    exists k; rewrite Heq; cbn [sat_thrust hit_xy andb].
    rewrite norm_xy_Fin; cbn [flt].
    split; [exact Hk |]; split; [reflexivity |]; split; [| split].
    + apply tilt_angle_le; [lra | exact Hlen].
    + exact Hone.
    + intros Hcut; split; [exact Hb | now apply Hexact].
  - apply Rltb_false_iff in Hb.
    exists 1%R; cbn [sat_thrust hit_xy andb].
    split; [lra |]; split; [now rewrite !Rmult_1_l |]; split; [| split].
    + assert (t = (PI / 2)%R) as -> by lra.
      apply tilt_angle_range.
    + reflexivity.
    + discriminate.
Qed.

(** A demand neither limit touches comes out as it went in. *)
Lemma saturate_untouched (s : PositionControl) (cmd : Vector3f) :
  hit_xy (saturate s cmd) = false -> hit_z (saturate s cmd) = false ->
  sat_thrust (saturate s cmd) = cmd.
Proof.
  unfold saturate, limit_xy, constrain.
  destruct (tilt_limit s <? Fin (PI / 2)); cbn.
  - destruct (_ <? norm_xy _ _); [discriminate |]; cbn.
    intros _ H; apply orb_false_iff in H as [-> ->]; now destruct cmd.
  - intros _ H; apply orb_false_iff in H as [-> ->]; now destruct cmd.
Qed.

Lemma saturate_finite (s : PositionControl) (cmd : Vector3f) :
  finite_env s = true -> fle zero (tilt_limit s) = true ->
  vfinite cmd = true ->
  vfinite (sat_thrust (saturate s cmd)) = true.
Proof.
  intros He Ht Hc.
  destruct (vfinite_Fin _ Hc) as [x [y [z ->]]].
  destruct (finite_env_tilt _ He) as [c [g [Hc' Hg]]].
  pose proof (tilt_limit_Fin _ c g Hc' Hg) as Htl.
  rewrite Htl in Ht; apply fle_Fin in Ht.
  destruct (finite_env_thrust_limits _ He) as [lo [hi [Hlo Hhi]]].
  destruct (saturate_Fin s x y z _ Htl Ht) as [k [_ [-> _]]].
  now rewrite Hlo, Hhi, constrain_Fin.
Qed.

(** ** Non-finite setpoints and the sentinel *)

Lemma resolved_as_sentinel (a b : float) :
  (if is_set (as_sentinel a) then as_sentinel a else b)
  = (if is_set a then a else b).
Proof. now destruct a. Qed.

Lemma is_set_as_sentinel (a : float) : is_set (as_sentinel a) = is_set a.
Proof. now destruct a. Qed.

Lemma resolver_unset_nonfinite (l : Loop) :
  _interfaceMapping (unset_nonfinite l) = _interfaceMapping l.
Proof.
  unfold _interfaceMapping, unset_nonfinite, on_ctrl, vsentinel.
  cbn [ctrl with_setpoints _pos_sp _vel_sp _yaw_sp _yawspeed_sp _pos
       yaw_hold _thr_sp _thr_int saturated_xy saturated_z].
  unfold with_setpoints, vtabulate; cbn [vget v0 v1 v2].
  now rewrite !resolved_as_sentinel.
Qed.

Lemma position_set_unset_nonfinite (l : Loop) (i : axis) :
  position_set (ctrl (unset_nonfinite l)) i = position_set (ctrl l) i.
Proof.
  unfold position_set, unset_nonfinite, vsentinel; cbn.
  rewrite vget_tabulate; apply is_set_as_sentinel.
Qed.

Lemma vel_target_ext (ctl ctl' : axis -> bool) (s : PositionControl) :
  (forall i, ctl i = ctl' i) -> vel_target ctl s = vel_target ctl' s.
Proof.
  intros H; unfold vel_target, vel_demand, p_term.
  now rewrite !H.
Qed.

Lemma positionController_ext (ctl ctl' : axis -> bool) (l : Loop) :
  (forall i, ctl i = ctl' i) ->
  _positionController ctl l = _positionController ctl' l.
Proof.
  intros H; unfold _positionController, on_ctrl.
  now rewrite (vel_target_ext ctl ctl' (ctrl l) H).
Qed.

Lemma generate_unset_nonfinite (dt : float) (l : Loop) :
  valid_dt dt = true ->
  generateThrustYawSetpoint dt (unset_nonfinite l)
  = generateThrustYawSetpoint dt l.
Proof.
  intros Hv; unfold generateThrustYawSetpoint; rewrite Hv.
  rewrite resolver_unset_nonfinite.
  rewrite (positionController_ext (position_set (ctrl (unset_nonfinite l)))
             (position_set (ctrl l)))
    by apply position_set_unset_nonfinite.
  reflexivity.
Qed.

(** ** The sample controllers, evaluated *)

Lemma sample_tilt_limit (pos_sp vel_sp thr_sp : Vector3f) (iv : R)
    (skip : bool) :
  tilt_limit (sample pos_sp vel_sp thr_sp iv skip) = Fin (PI / 4).
Proof. pi_facts; feval; reflexivity. Qed.

Lemma lean_hard_velocity :
  vel_target (position_set (ctrl lean_hard)) (ctrl (_interfaceMapping lean_hard))
  = mkV (Fin (3 / 2)) (Fin 0) (Fin 1).
Proof.
  unfold vel_target.
  replace (limit_xy _ _ _) with (Fin (3 / 2), Fin 0)
    by (fcbv; sqrt_is (3 / 2)%R; feval; fin_eq).
  replace (constrain _ _ _) with (Fin 1) by (feval; fin_eq).
  reflexivity.
Qed.

Lemma lean_hard_demand :
  thrust_demand (Fin (1 / 50)) lean_hard
  = mkV (Fin (3 / 2)) (Fin 0) (Fin (3 / 2)).
Proof.
  unfold thrust_demand.
  change (_skipController (ctrl (_interfaceMapping lean_hard))) with false.
  cbv iota; unfold _positionController, on_ctrl; cbn [ctrl].
  rewrite lean_hard_velocity.
  fcbv; fin_eq.
Qed.

Lemma lean_hard_tilt_limit : tilt_limit (ctrl lean_hard) = Fin (PI / 4).
Proof. apply sample_tilt_limit. Qed.

Lemma lean_hard_thrust :
  _thr_sp (ctrl (generateThrustYawSetpoint (Fin (1 / 50)) lean_hard))
  = mkV (Fin (3 / 2)) (Fin 0) (Fin 1).
Proof.
  pi_facts.
  rewrite generate_thrust by (apply valid_dt_Fin; lra).
  rewrite lean_hard_demand.
  unfold saturate; rewrite lean_hard_tilt_limit.
  cbn [v0 v1 v2 fabs ftan fmul flt].
  rewrite tan_PI4, (Rabs_right (3 / 2)) by lra.
  rewrite (Rltb_true (PI / 4) (PI / 2)) by lra.
  replace (limit_xy _ _ _) with (Fin (3 / 2), Fin 0)
    by (fcbv; sqrt_is (3 / 2)%R; feval; fin_eq).
  replace (constrain _ _ _) with (Fin 1) by (feval; fin_eq).
  reflexivity.
Qed.

Lemma tilt_of_lean_hard : (PI / 4 < tilt_angle (3 / 2) 0 1)%R.
Proof.
  unfold tilt_angle; rewrite (Reqb_false 1 0) by lra.
  replace (sqrt (3 / 2 * (3 / 2) + 0 * 0)) with (3 / 2)%R
    by (symmetry; replace (3 / 2 * (3 / 2) + 0 * 0)%R
          with (3 / 2 * (3 / 2))%R by lra; apply sqrt_square; lra).
  rewrite Rabs_R1, <- atan_1.
  apply atan_increasing; lra.
Qed.

Lemma feedforward_demand_sample :
  vel_demand (position_set (ctrl target_with_feedforward))
    (ctrl (_interfaceMapping target_with_feedforward)) AZ
  = Fin (-1 / 2).
Proof. fcbv; fin_eq. Qed.

Lemma feedforward_velocity_error_sample :
  vel_error
    (ctrl (_positionController (position_set (ctrl target_with_feedforward))
             (_interfaceMapping target_with_feedforward))) AZ
  = Fin (-1 / 2).
Proof.
  unfold vel_error, _positionController, on_ctrl.
  cbn [ctrl set_vel_sp with_setpoints _vel_sp _vel vget].
  rewrite vel_target_z, feedforward_demand_sample.
  feval; fin_eq.
Qed.

(** ** Tilt and thrust limits of the thrust setpoint *)







(** ** The position loop and the feed-forward *)

(** C3, as the model has it.  On an axis where both a position setpoint and
    a velocity feed-forward are set, the velocity the position loop demands
    is [Pp * (position setpoint - position) + feed-forward], and the resolved
    velocity target is that sum put through the velocity limits: the
    horizontal pair through the horizontal maximum, the vertical component
    clamped to [[-up, down]].  A demand inside the limits is the resolved
    target as it stands. *)
Theorem feedforward_is_added_then_clamped (l : Loop) (i : axis) :
  position_set (ctrl l) i = true ->
  is_set (vget (_vel_sp (ctrl l)) i) = true ->
  vel_demand (position_set (ctrl l)) (ctrl (_interfaceMapping l)) i
  = vget (Pp (ctrl l)) i * (vget (_pos_sp (ctrl l)) i - vget (_pos (ctrl l)) i)
    + vget (_vel_sp (ctrl l)) i
  /\ _vel_sp (ctrl (_positionController (position_set (ctrl l))
                      (_interfaceMapping l)))
     = vel_target (position_set (ctrl l)) (ctrl (_interfaceMapping l))
  /\ v2 (vel_target (position_set (ctrl l)) (ctrl (_interfaceMapping l)))
     = constrain
         (vel_demand (position_set (ctrl l)) (ctrl (_interfaceMapping l)) AZ)
         (- vel_up_limit (ctrl l)) (down (_VelMaxZ (ctrl l)))
  /\ (v0 (vel_target (position_set (ctrl l)) (ctrl (_interfaceMapping l))),
      v1 (vel_target (position_set (ctrl l)) (ctrl (_interfaceMapping l))))
     = limit_xy
         (vel_demand (position_set (ctrl l)) (ctrl (_interfaceMapping l)) AX)
         (vel_demand (position_set (ctrl l)) (ctrl (_interfaceMapping l)) AY)
         (_VelMaxXY (ctrl l))
  /\ (forall v lo hi,
        vel_demand (position_set (ctrl l)) (ctrl (_interfaceMapping l)) AZ
        = Fin v ->
        - vel_up_limit (ctrl l) = Fin lo ->
        down (_VelMaxZ (ctrl l)) = Fin hi ->
        (lo <= v <= hi)%R ->
        v2 (vel_target (position_set (ctrl l)) (ctrl (_interfaceMapping l)))
        = Fin v)
  /\ (forall x y m,
        vel_demand (position_set (ctrl l)) (ctrl (_interfaceMapping l)) AX
        = Fin x ->
        vel_demand (position_set (ctrl l)) (ctrl (_interfaceMapping l)) AY
        = Fin y ->
        _VelMaxXY (ctrl l) = Fin m ->
        (sqrt (x * x + y * y) <= m)%R ->
        v0 (vel_target (position_set (ctrl l)) (ctrl (_interfaceMapping l)))
        = Fin x
        /\ v1 (vel_target (position_set (ctrl l)) (ctrl (_interfaceMapping l)))
           = Fin y).
Proof.
  intros Hp Hv.
  pose proof (vel_target_z (position_set (ctrl l))
                (ctrl (_interfaceMapping l))) as Hz.
  pose proof (vel_target_xy (position_set (ctrl l))
                (ctrl (_interfaceMapping l))) as Hxy.
  split; [| split; [reflexivity | split; [exact Hz | split; [exact Hxy |]]]].
  - unfold vel_demand, p_term; rewrite Hp.
    cbn [_interfaceMapping on_ctrl ctrl with_setpoints _pos_sp _vel_sp Pp _pos].
    rewrite !vget_tabulate.
    unfold position_set in Hp; now rewrite Hp, Hv.
  - split.
    + intros v lo hi Hd Hlo Hhi Hin.
      rewrite Hz, Hd.
      change (vel_up_limit (ctrl (_interfaceMapping l)))
        with (vel_up_limit (ctrl l)).
      change (_VelMaxZ (ctrl (_interfaceMapping l))) with (_VelMaxZ (ctrl l)).
      rewrite Hlo, Hhi; now apply constrain_inside.
    + intros x y m Hx Hy Hm Hin.
      rewrite Hx, Hy in Hxy.
      change (_VelMaxXY (ctrl (_interfaceMapping l)))
        with (_VelMaxXY (ctrl l)) in Hxy.
      rewrite Hm, limit_xy_inside in Hxy by assumption.
      now injection Hxy.
Qed.

Lemma feedforward_is_added_then_clamped_witness :
  position_set (ctrl target_with_feedforward) AZ = true
  /\ is_set (vget (_vel_sp (ctrl target_with_feedforward)) AZ) = true
  /\ vel_demand (position_set (ctrl target_with_feedforward))
       (ctrl (_interfaceMapping target_with_feedforward)) AZ
     = vget (Pp (ctrl target_with_feedforward)) AZ
       * (vget (_pos_sp (ctrl target_with_feedforward)) AZ
          - vget (_pos (ctrl target_with_feedforward)) AZ)
       + vget (_vel_sp (ctrl target_with_feedforward)) AZ.
Proof.
  split; [reflexivity |]; split; [reflexivity |].
  exact (proj1 (feedforward_is_added_then_clamped target_with_feedforward AZ
                  eq_refl eq_refl)).
Defined.

(** Counterexample to C3 as stated: with a position target one metre above the vehicle
    and a downward feed-forward of 0.5 m/s, both well inside the limits, the
    resolved vertical velocity after a step is -0.5 m/s (the proportional
    term -1 plus the feed-forward), not the feed-forward 0.5 m/s. *)
Lemma feedforward_does_not_override_p_term :
  position_set (ctrl target_with_feedforward) AZ = true
  /\ is_set (vget (_vel_sp (ctrl target_with_feedforward)) AZ) = true
  /\ vget (_vel_sp (ctrl (generateThrustYawSetpoint (Fin (1 / 50))
                            target_with_feedforward))) AZ
     = Fin (-1 / 2)
  /\ constrain (vget (_vel_sp (ctrl target_with_feedforward)) AZ)
       (- vel_up_limit (ctrl target_with_feedforward))
       (down (_VelMaxZ (ctrl target_with_feedforward)))
     = Fin (1 / 2)
  /\ (-1 / 2 < 1 / 2)%R.
Proof.
  split; [reflexivity |]; split; [reflexivity |].
  split; [| split; [| lra]].
  - rewrite generate_vel_sp;
      [| apply valid_dt_Fin; lra | reflexivity].
    cbn [vget]; rewrite vel_target_z, feedforward_demand_sample.
    feval; fin_eq.
  - feval; fin_eq.
Qed.

(** ** Anti-windup *)



(** ** Invalid elapsed time *)



(** ** The resolver *)

(** C6.  On an axis whose position setpoint is the NaN sentinel the resolver
    makes the axis velocity-controlled only: the axis does not count as
    position-controlled, the proportional term of the position loop is zero
    on it, and the resolved velocity target is the supplied velocity
    feed-forward, or zero when the velocity setpoint of the axis is unset
    too; the velocity the position loop demands is that target alone, and the
    resolved position target is the current position. *)
Theorem unset_position_is_velocity_only (l : Loop) (i : axis) :
  vget (_pos_sp (ctrl l)) i = NaN ->
  position_set (ctrl l) i = false
  /\ p_term (position_set (ctrl l)) (ctrl (_interfaceMapping l)) i = zero
  /\ (is_set (vget (_vel_sp (ctrl l)) i) = true ->
      vget (_vel_sp (ctrl (_interfaceMapping l))) i = vget (_vel_sp (ctrl l)) i)
  /\ (vget (_vel_sp (ctrl l)) i = NaN ->
      vget (_vel_sp (ctrl (_interfaceMapping l))) i = zero)
  /\ vel_demand (position_set (ctrl l)) (ctrl (_interfaceMapping l)) i
     = vget (_vel_sp (ctrl (_interfaceMapping l))) i
  /\ vget (_pos_sp (ctrl (_interfaceMapping l))) i = vget (_pos (ctrl l)) i.
Proof.
  intros Hp.
  assert (Hset : position_set (ctrl l) i = false)
    by (unfold position_set; now rewrite Hp).
  assert (Hterm : p_term (position_set (ctrl l)) (ctrl (_interfaceMapping l)) i
                  = zero) by (unfold p_term; now rewrite Hset).
  repeat split; try assumption.
  - intros Hv; cbn; rewrite vget_tabulate; now rewrite Hv.
  - intros Hv; cbn; rewrite vget_tabulate; now rewrite Hv.
  - unfold vel_demand; rewrite Hterm; apply fadd_zero_l.
  - cbn; rewrite vget_tabulate; now rewrite Hp.
Qed.

Lemma unset_position_is_velocity_only_witness :
  (vget (_pos_sp (ctrl velocity_only)) AX = NaN
   /\ vget (_vel_sp (ctrl (_interfaceMapping velocity_only))) AX = Fin (3 / 2)
   /\ p_term (position_set (ctrl velocity_only))
        (ctrl (_interfaceMapping velocity_only)) AX = zero)
  /\ (vget (_pos_sp (ctrl velocity_only)) AY = NaN
      /\ vget (_vel_sp (ctrl velocity_only)) AY = NaN
      /\ vget (_vel_sp (ctrl (_interfaceMapping velocity_only))) AY = zero).
Proof.
  assert (Hx : vget (_pos_sp (ctrl velocity_only)) AX = NaN) by reflexivity.
  assert (Hy : vget (_pos_sp (ctrl velocity_only)) AY = NaN) by reflexivity.
  destruct (unset_position_is_velocity_only velocity_only AX Hx)
    as [_ [Ht [Hv _]]].
  destruct (unset_position_is_velocity_only velocity_only AY Hy)
    as [_ [_ [_ [Hz _]]]].
  split.
  - split; [exact Hx |]; split; [| exact Ht].
    rewrite Hv; reflexivity.
  - split; [exact Hy |]; split; [reflexivity | now apply Hz].
Defined.







(** ** The integral resets and the accessors *)

Lemma set_thr_int_frame (v : Vector3f) (s : PositionControl) :
  same_but_thr_int s (set_thr_int v s).
Proof. unfold same_but_thr_int; repeat split. Qed.

(** C9.  The integral resets act per axis group and independently:
    [resetIntegralXY] sets exactly the two horizontal components of
    [_thr_int] to zero and leaves the vertical component and every other
    member as they were; [resetIntegralZ] sets exactly the vertical component
    to zero and leaves the horizontal components and every other member as
    they were.  Neither undoes nor disturbs the other: they commute. *)
Theorem resetIntegral_per_axis_group (s : PositionControl) :
  (_thr_int (resetIntegralXY s) = mkV zero zero (v2 (_thr_int s))
   /\ same_but_thr_int s (resetIntegralXY s))
  /\ (_thr_int (resetIntegralZ s) = mkV (v0 (_thr_int s)) (v1 (_thr_int s)) zero
      /\ same_but_thr_int s (resetIntegralZ s))
  /\ resetIntegralXY (resetIntegralZ s) = resetIntegralZ (resetIntegralXY s).
Proof.
  repeat split.
Qed.

Lemma call_member (a : Accessor) (s : PositionControl) :
  call a s = (member a s, s).
Proof. destruct a; reflexivity. Qed.

Lemma calls_members (l : list Accessor) (s : PositionControl) :
  calls l s = (map (fun a => member a s) l, s).
Proof.
  induction l as [| a l IH]; cbn [calls map]; [reflexivity |].
  now rewrite call_member, IH.
Qed.

(** C10.  Every read accessor returns the corresponding member and leaves the
    whole controller as it was; so a sequence of accessor calls leaves the
    controller as it was, each call in it returns the member it names, and
    calling the same accessors in another order returns the same readings in
    that order. *)
Theorem accessors_read_only :
  (forall s, getThrustSetpoint s = (_thr_sp s, s))
  /\ (forall s, getYawSetpoint s = (_yaw_sp s, s))
  /\ (forall s, getYawspeedSetpoint s = (_yawspeed_sp s, s))
  /\ (forall s, getVelSp s = (_vel_sp s, s))
  /\ (forall s, getPosSp s = (_pos_sp s, s))
  /\ (forall l s, snd (calls l s) = s)
  /\ (forall l s, fst (calls l s) = map (fun a => member a s) l)
  /\ (forall l l' s,
        Permutation l l' -> Permutation (fst (calls l s)) (fst (calls l' s)))
  /\ (forall l1 l2 a s,
        fst (calls (l1 ++ a :: l2) s)
        = fst (calls l1 s) ++ fst (call a s) :: fst (calls l2 s)).
Proof.
  repeat split; intros.
  - now rewrite calls_members.
  - now rewrite calls_members.
  - rewrite !calls_members; cbn [fst]; now apply Permutation_map.
  - rewrite !calls_members, call_member; cbn [fst].
    now rewrite map_app.
Qed.

(** ** More on the integral resets and the accessors *)

Lemma same_but_thr_int_trans (s1 s2 s3 : PositionControl) :
  same_but_thr_int s1 s2 -> same_but_thr_int s2 s3 -> same_but_thr_int s1 s3.
Proof.
  unfold same_but_thr_int; intros H12 H23.
  repeat match goal with
  | H : _ /\ _ |- _ => destruct H
  end.
  repeat split; congruence.
Qed.

Lemma member_ignores_thr_int (a : Accessor) (s s' : PositionControl) :
  same_but_thr_int s s' -> member a s' = member a s.
Proof.
  unfold same_but_thr_int; intros H.
  repeat match goal with
  | H : _ /\ _ |- _ => destruct H
  end.
  destruct a; cbn; congruence.
Qed.

(** X1.  Each reset is idempotent, and it changes the controller exactly
    when a component it clears is not already the zero it stores:
    [resetIntegralXY] leaves a controller as it is if and only if both
    horizontal integral components are zero, [resetIntegralZ] if and only if
    the vertical one is. *)
Theorem resetIntegral_idempotent_fixpoints (s : PositionControl) :
  resetIntegralXY (resetIntegralXY s) = resetIntegralXY s
  /\ resetIntegralZ (resetIntegralZ s) = resetIntegralZ s
  /\ (resetIntegralXY s = s
      <-> v0 (_thr_int s) = zero /\ v1 (_thr_int s) = zero)
  /\ (resetIntegralZ s = s <-> v2 (_thr_int s) = zero).
Proof.
  split; [reflexivity |]; split; [reflexivity |]; split; split.
  - intros H; apply (f_equal _thr_int) in H; cbn in H.
    destruct (_thr_int s) as [a b c]; cbn in *.
    injection H as <- <-; now split.
  - intros [Hx Hy]; destruct s as [? ? ? ? ? ? ? ? ? ? ? [a b c]];
      cbn in *; now subst.
  - intros H; apply (f_equal _thr_int) in H; cbn in H.
    destruct (_thr_int s) as [a b c]; cbn in *.
    now injection H as <-.
  - intros Hz; destruct s as [? ? ? ? ? ? ? ? ? ? ? [a b c]];
      cbn in *; now subst.
Qed.

(** X2.  No accessor exposes the thrust integral: two controllers that
    differ at most in [_thr_int] give the same readings to every sequence of
    accessor calls. *)
Theorem accessors_never_expose_integral
    (l : list Accessor) (s s' : PositionControl) :
  same_but_thr_int s s' -> fst (calls l s') = fst (calls l s).
Proof.
  intros H; rewrite !calls_members; cbn [fst].
  apply map_ext; intros a; now apply member_ignores_thr_int.
Qed.

Lemma accessors_never_expose_integral_witness :
  same_but_thr_int (ctrl lean_hard)
    (set_thr_int (mkV NaN PInf (Fin 7)) (ctrl lean_hard))
  /\ fst (calls [GetThrustSetpoint; GetYawSetpoint; GetVelSp]
            (set_thr_int (mkV NaN PInf (Fin 7)) (ctrl lean_hard)))
     = fst (calls [GetThrustSetpoint; GetYawSetpoint; GetVelSp]
              (ctrl lean_hard)).
Proof.
  assert (H : same_but_thr_int (ctrl lean_hard)
                (set_thr_int (mkV NaN PInf (Fin 7)) (ctrl lean_hard)))
    by apply set_thr_int_frame.
  split; [exact H |].
  exact (accessors_never_expose_integral _ _ _ H).
Defined.

Lemma perform_frame (o : Op) (s : PositionControl) :
  same_but_thr_int s (snd (perform o s)).
Proof.
  destruct o as [a | |]; cbn [perform].
  - rewrite call_member; cbn [snd]; unfold same_but_thr_int; repeat split.
  - apply set_thr_int_frame.
  - apply set_thr_int_frame.
Qed.

Lemma perform_reading (o : Op) (s : PositionControl) :
  fst (perform o s)
  = match o with OpRead a => [member a s] | _ => [] end.
Proof. destruct o; cbn [perform]; [now rewrite call_member | |]; reflexivity. Qed.

Lemma perform_integral (o : Op) (s : PositionControl) :
  _thr_int (snd (perform o s))
  = mkV (if is_resetXY o then zero else v0 (_thr_int s))
        (if is_resetXY o then zero else v1 (_thr_int s))
        (if is_resetZ o then zero else v2 (_thr_int s)).
Proof.
  destruct o as [a | |]; cbn [perform is_resetXY is_resetZ].
  - rewrite call_member; cbn [snd]; now destruct (_thr_int s).
  - reflexivity.
  - reflexivity.
Qed.

Lemma run_cons (o : Op) (p : list Op) (s : PositionControl) :
  run (o :: p) s
  = (fst (perform o s) ++ fst (run p (snd (perform o s))),
     snd (run p (snd (perform o s)))).
Proof.
  cbn [run]; destruct (perform o s) as [r s1]; cbn [fst snd].
  now destruct (run p s1).
Qed.

(** A program never changes a member other than [_thr_int]. *)
Lemma run_frame (p : list Op) (s : PositionControl) :
  same_but_thr_int s (snd (run p s)).
Proof.
  revert s; induction p as [| o p IH]; intros s.
  - cbn; unfold same_but_thr_int; repeat split.
  - rewrite run_cons; cbn [snd].
    apply same_but_thr_int_trans with (s2 := snd (perform o s));
      [apply perform_frame | apply IH].
Qed.

(** The readings of a program are the members of the controller it started
    on. *)
Lemma run_readings (p : list Op) (s : PositionControl) :
  fst (run p s) = map (fun a => member a s) (reads p).
Proof.
  revert s; induction p as [| o p IH]; intros s; [reflexivity |].
  rewrite run_cons; cbn [fst].
  rewrite IH, perform_reading.
  rewrite (map_ext _ (fun a => member a s))
    by (intros a; apply member_ignores_thr_int, perform_frame).
  now destruct o.
Qed.

(** The integral a program leaves. *)
Lemma run_integral (p : list Op) (s : PositionControl) :
  _thr_int (snd (run p s))
  = mkV (if existsb is_resetXY p then zero else v0 (_thr_int s))
        (if existsb is_resetXY p then zero else v1 (_thr_int s))
        (if existsb is_resetZ p then zero else v2 (_thr_int s)).
Proof.
  revert s; induction p as [| o p IH]; intros s.
  - cbn; now destruct (_thr_int s).
  - rewrite run_cons; cbn [snd].
    rewrite IH, perform_integral; cbn [existsb v0 v1 v2].
    destruct (is_resetXY o), (is_resetZ o),
      (existsb is_resetXY p), (existsb is_resetZ p); reflexivity.
Qed.

Lemma same_but_thr_int_eq (s s1 s2 : PositionControl) :
  same_but_thr_int s s1 -> same_but_thr_int s s2 ->
  _thr_int s1 = _thr_int s2 -> s1 = s2.
Proof.
  unfold same_but_thr_int; intros H1 H2 Hi.
  repeat match goal with
  | H : _ /\ _ |- _ => destruct H
  end.
  destruct s1, s2; cbn [_pos _vel _vel_dot _acc _yaw _pos_sp _vel_sp _acc_sp
    _thr_sp _yaw_sp _yawspeed_sp _thr_int _constraints Pp Pv Iv Dv _VelMaxXY
    _VelMaxZ _ThrustLimit _ThrHover _ThrMinPosition _ThrMinStab _tilt_max
    _skipController _handles] in *.
  subst; reflexivity.
Qed.

(** X3.  For every program of accessor calls and integral resets, in any
    order: each accessor call returns the member the controller had before
    the program started (a reset never changes what is read); every member
    but [_thr_int] is the same after the program as before; and a component
    of [_thr_int] is zero after the program if the program contains the reset
    of its axis group, and keeps its value otherwise. *)
Theorem run_reads_and_resets (p : list Op) (s : PositionControl) :
  fst (run p s) = map (fun a => member a s) (reads p)
  /\ same_but_thr_int s (snd (run p s))
  /\ _thr_int (snd (run p s))
     = mkV (if existsb is_resetXY p then zero else v0 (_thr_int s))
           (if existsb is_resetXY p then zero else v1 (_thr_int s))
           (if existsb is_resetZ p then zero else v2 (_thr_int s)).
Proof.
  split; [apply run_readings |].
  split; [apply run_frame | apply run_integral].
Qed.

(** X4.  Two programs that call the same accessors in the same order and
    contain the same kinds of reset return the same readings and leave the
    same controller, however the resets are ordered, repeated or interleaved
    with the calls. *)
Theorem run_depends_on_reads_and_reset_kinds
    (p q : list Op) (s : PositionControl) :
  reads p = reads q ->
  existsb is_resetXY p = existsb is_resetXY q ->
  existsb is_resetZ p = existsb is_resetZ q ->
  run p s = run q s.
Proof.
  intros Hr Hxy Hz.
  rewrite (surjective_pairing (run p s)), (surjective_pairing (run q s)).
  f_equal.
  - now rewrite !run_readings, Hr.
  - apply (same_but_thr_int_eq s); [apply run_frame | apply run_frame |].
    now rewrite !run_integral, Hxy, Hz.
Qed.

Lemma run_depends_on_reads_and_reset_kinds_witness :
  run [OpResetXY; OpRead GetVelSp; OpResetZ; OpRead GetThrustSetpoint]
    (set_thr_int (mkV NaN PInf (Fin 7)) (ctrl lean_hard))
  = run [OpResetZ; OpResetXY; OpRead GetVelSp; OpResetXY;
         OpRead GetThrustSetpoint; OpResetZ]
      (set_thr_int (mkV NaN PInf (Fin 7)) (ctrl lean_hard)).
Proof.
  exact (run_depends_on_reads_and_reset_kinds
           [OpResetXY; OpRead GetVelSp; OpResetZ; OpRead GetThrustSetpoint]
           [OpResetZ; OpResetXY; OpRead GetVelSp; OpResetXY;
            OpRead GetThrustSetpoint; OpResetZ]
           (set_thr_int (mkV NaN PInf (Fin 7)) (ctrl lean_hard))
           eq_refl eq_refl eq_refl).
Defined.
